(** * xLearn data readers: [src/reader/reader.h]

    A shallow embedding of the [Reader] hierarchy of xLearn (the abstract
    [Reader], the in-memory [InmemReader] and the streaming [OndiskReader])
    together with the properties its design document states about it.

    What [reader.h] defines inline (constructors, the three [SetShuffle]
    bodies, [SetThreadPool], [SetBlockSize]) is embedded from the header.
    What the header only declares ([Initialize], [Samples], [Reset],
    [check_file_format], [hash_binary], [init_from_binary], [init_from_txt],
    [read_block], [shrink_block]) lives in [reader.cc]; those definitions are
    marked "Modelled from the spec" and follow the design document. *)

From Stdlib Require Import ZArith Lia Ascii.
From stdpp Require Import base option list gmap strings.

Open Scope nat_scope.

(** ** Outcomes of fallible operations

    [CHECK_*] and the "fatal" errors of the design abort the process;
    an operation therefore either returns normally or dies with a
    diagnostic. *)

Inductive Result (A : Type) : Type :=
  | Ok (a : A)
  | Fatal (diagnostic : string).
Arguments Ok {A} a.
Arguments Fatal {A} diagnostic.

Definition is_fatal {A} (r : Result A) : bool :=
  match r with Ok _ => false | Fatal _ => true end.

Global Instance Result_bind : MBind Result := λ A B k r,
  match r with Ok a => k a | Fatal d => Fatal d end.

(** ** Process-wide state: the [rand()] stream and the log *)

(** [rand()] as an explicit stream: [rand_seq] lists every value the
    generator will ever return, [rand_pos] counts the calls made so far.
    Nothing is assumed of the values, so the streams include the one the
    generator in use produces: statements are made for every stream, never
    for some stream. *)
Record Rand : Type := mkRand { rand_seq : nat → nat; rand_pos : nat }.

Definition rand (g : Rand) : nat * Rand :=
  (rand_seq g (rand_pos g), mkRand (rand_seq g) (S (rand_pos g))).

Inductive Severity : Type := INFO | WARNING | ERROR | FATAL.

Record Env : Type := mkEnv { env_rand : Rand; env_log : list (Severity * string) }.

(** [LOG(severity) << msg]: appends to the log and returns. *)
Definition LOG (s : Severity) (msg : string) (e : Env) : Env :=
  mkEnv (env_rand e) (env_log e ++ [(s, msg)]).

(** ** [std::random_shuffle]

    The standard library's algorithm over [rand()]:
    [for i in 1 .. n-1: swap (a[i], a[rand() % (i + 1)])]. *)

Definition swap {A} (l : list A) (i j : nat) : list A :=
  match l !! i, l !! j with
  | Some a, Some b => <[j:=a]> (<[i:=b]> l)
  | _, _ => l
  end.

Fixpoint shuffle_from {A} (i k : nat) (l : list A) (g : Rand) : list A * Rand :=
  match k with
  | 0 => (l, g)
  | S k' =>
      let (x, g') := rand g in
      shuffle_from (S i) k' (swap l i (x mod (i + 1))) g'
  end.

Definition random_shuffle {A} (l : list A) (g : Rand) : list A * Rand :=
  shuffle_from 1 (length l - 1) l g.

(** ** Record tables (design document, section 3)

    Modelled from the spec: [DMatrix] is declared in
    [src/data/data_structure.h], which is absent.
    A row is an optional label and an ordered sequence of entries
    (feature index, value, optional field index); a table is an ordered
    sequence of rows sharing one "has label" flag.  Scalars are kept as
    the integer code of their bit pattern: the readers only move them. *)

Abbreviation index_t := nat (only parsing).
Abbreviation real_t := Z (only parsing).

Record Node : Type := mkNode {
  field_id : option Z;
  feat_id : Z;
  feat_val : real_t }.

Record SparseRow : Type := mkRow {
  row_label : option real_t;
  row_nodes : list Node }.

Record DMatrix : Type := mkDMatrix {
  dm_has_label : bool;
  dm_rows : list SparseRow }.

Definition row_length (m : DMatrix) : index_t := length (dm_rows m).

Definition empty_matrix : DMatrix := mkDMatrix false [].

Global Instance Node_eq_dec : EqDecision Node.
Proof. solve_decision. Defined.
Global Instance SparseRow_eq_dec : EqDecision SparseRow.
Proof. solve_decision. Defined.
Global Instance DMatrix_eq_dec : EqDecision DMatrix.
Proof. solve_decision. Defined.

(** ** Formats and parsers

    The three line formats named in the header comment of
    [check_file_format]. *)

Inductive Format : Type := LibSVM | FFM | CSV.

Global Instance Format_eq_dec : EqDecision Format.
Proof. solve_decision. Defined.

Definition format_name (f : Format) : string :=
  match f with LibSVM => "libsvm" | FFM => "ffm" | CSV => "csv" end.

Definition nl : ascii := "010"%char.

(** The pieces of [b] between occurrences of [sep]: maximal runs closed
    by a separator, plus the unclosed tail if there is one. *)
Fixpoint fields (sep : ascii) (b : list ascii) : list (list ascii) :=
  match b with
  | [] => []
  | c :: b' =>
      if decide (c = sep) then [] :: fields sep b'
      else match fields sep b' with
           | [] => [[c]]
           | l :: ls => (c :: l) :: ls
           end
  end.

(** The records of a block: its newline-terminated lines, plus the
    unterminated tail if there is one. *)
Definition lines (b : list ascii) : list (list ascii) := fields nl b.

(** The external collaborators of the readers.  [parse_line] is the
    format-specific translation of one record ([src/reader/parser.h]);
    [inspect] is the structural inspection of the leading content that
    [check_file_format] performs, [None] for an unrecognised structure. *)
Class Parser : Type := { parse_line : Format → bool → list ascii → SparseRow }.

Class FormatDetector : Type := { inspect : list ascii → option (Format * bool) }.

(** Modelled from the spec: [Parser::Parse] ([src/reader/parser.h], absent).
    A stateless translation of a byte block into the rows of its records,
    in order. *)
Definition Parse `{Parser} (f : Format) (has_label : bool) (block : list ascii)
  : list SparseRow :=
  map (parse_line f has_label) (lines block).

(** Modelled from the spec: the parser registry behind [CREATE_PARSER]
    ([src/base/class_register.h] and [src/reader/parser.h], absent): a map
    from format name to parser variant; an unregistered name is fatal. *)
Definition xLearn_parser_registry : gmap string Format :=
  <["libsvm" := LibSVM]> (<["ffm" := FFM]> (<["csv" := CSV]> ∅)).

Definition CREATE_PARSER (format_name : string) : Result Format :=
  match xLearn_parser_registry !! format_name with
  | Some p => Ok p
  | None => Fatal "unregistered parser"
  end.

(** ** class Reader (reader.h:80-135) *)

Record ReaderBase : Type := mkReaderBase {
  filename_ : string;
  data_samples_ : DMatrix;
  parser_ : option Format;
  has_label_ : bool;
  shuffle_ : bool }.

(** [Reader() : shuffle_(false)]; the other members are not initialised by
    the constructor and are given their empty values here. *)
Definition Reader_ctor : ReaderBase := mkReaderBase "" empty_matrix None false false.

Definition set_shuffle (b : bool) (r : ReaderBase) : ReaderBase :=
  mkReaderBase (filename_ r) (data_samples_ r) (parser_ r) (has_label_ r) b.

Definition set_data_samples (m : DMatrix) (r : ReaderBase) : ReaderBase :=
  mkReaderBase (filename_ r) m (parser_ r) (has_label_ r) (shuffle_ r).

(** [Reader::SetShuffle] (reader.h:103-105). *)
Definition Reader_SetShuffle (shuffle : bool) (r : ReaderBase) : ReaderBase :=
  set_shuffle shuffle r.

(** [Reader::CreateParser] (reader.h:129-131). *)
Definition CreateParser (format_name : string) : Result Format :=
  CREATE_PARSER format_name.

(** Modelled from the spec: [Reader::check_file_format] is declared at
    reader.h:126 and defined in [reader.cc] (absent).  It classifies the
    source into one of "libsvm", "ffm", "csv", decides whether the data
    carries a label, and crashes on an unknown format. *)
Definition check_file_format `{FormatDetector} (src : list ascii)
  : Result (string * bool) :=
  match inspect src with
  | Some (f, has_label) => Ok (format_name f, has_label)
  | None => Fatal "Unknow file format"
  end.

(** The interface the training loop programs against: the virtual
    functions of [Reader] other than [Initialize].  [Samples] yields [None]
    when the call never returns. *)
Class ReaderOps (R : Type) : Type := mkReaderOps {
  Samples : R → option (DMatrix * R);
  Reset : R → Env → R * Env;
  SetShuffle : bool → R → Env → R * Env;
  has_label : R → bool }.

(** The consumer loop of the header comment (reader.h:61-75): call
    [Samples] until it returns zero rows, collecting the batches. *)
Fixpoint full_pass `{ReaderOps R} (fuel : nat) (r : R) : option (list DMatrix * R) :=
  match fuel with
  | 0 => None
  | S fuel' =>
      match Samples r with
      | None => None
      | Some (m, r') =>
          if decide (row_length m = 0) then Some ([], r')
          else match full_pass fuel' r' with
               | Some (ms, r'') => Some (m :: ms, r'')
               | None => None
               end
      end
  end.

Definition pass_rows (ms : list DMatrix) : list SparseRow := concat (map dm_rows ms).

Definition pass_count (ms : list DMatrix) : nat := sum_list (map row_length ms).

(** ** Files and the binary cache

    Modelled from the spec: the file primitives ([src/base/file_util.h])
    and [DMatrix::Serialize] / [DMatrix::Deserialize]
    ([src/data/data_structure.h]) are absent.  A source is a text file;
    its cache is the sibling file with the fixed suffix [".bin"], holding
    a staleness token followed by the serialised table.  The design fixes
    neither the token nor the byte layout, so the token is whatever
    [signal] computes from the source and the layout is a plain
    length-prefixed sequence of words. *)

Class StalenessSignal : Type := { signal : list ascii → list Z }.

Record BinFile : Type := mkBinFile { bin_token : list Z; bin_payload : list Z }.

Record FileSystem : Type := mkFS {
  text_files : gmap string (list ascii);
  bin_files : gmap string BinFile }.

Definition write_bin (name : string) (c : BinFile) (fs : FileSystem) : FileSystem :=
  mkFS (text_files fs) (<[name := c]> (bin_files fs)).

Definition write_text (name : string) (src : list ascii) (fs : FileSystem) : FileSystem :=
  mkFS (<[name := src]> (text_files fs)) (bin_files fs).

Definition OpenFileOrDie (fs : FileSystem) (name : string) : Result (list ascii) :=
  match text_files fs !! name with
  | Some src => Ok src
  | None => Fatal "Cannot open file"
  end.

Definition bin_name (filename : string) : string := filename +:+ ".bin".

Definition ser_opt (o : option Z) : list Z :=
  match o with None => [0%Z] | Some v => [1%Z; v] end.

Definition ser_node (n : Node) : list Z :=
  ser_opt (field_id n) ++ [feat_id n; feat_val n].

Definition ser_row (r : SparseRow) : list Z :=
  ser_opt (row_label r) ++ Z.of_nat (length (row_nodes r)) :: flat_map ser_node (row_nodes r).

Definition Serialize (m : DMatrix) : list Z :=
  (if dm_has_label m then 1%Z else 0%Z) :: Z.of_nat (length (dm_rows m))
    :: flat_map ser_row (dm_rows m).

Definition de_opt (ws : list Z) : option (option Z * list Z) :=
  match ws with
  | 0%Z :: ws' => Some (None, ws')
  | 1%Z :: v :: ws' => Some (Some v, ws')
  | _ => None
  end.

Definition de_node (ws : list Z) : option (Node * list Z) :=
  '(f, ws1) ← de_opt ws;
  match ws1 with
  | i :: v :: ws2 => Some (mkNode f i v, ws2)
  | _ => None
  end.

Fixpoint de_many {A} (de : list Z → option (A * list Z)) (n : nat) (ws : list Z)
  : option (list A * list Z) :=
  match n with
  | 0 => Some ([], ws)
  | S n' =>
      '(x, ws1) ← de ws;
      '(xs, ws2) ← de_many de n' ws1;
      Some (x :: xs, ws2)
  end.

Definition de_row (ws : list Z) : option (SparseRow * list Z) :=
  '(y, ws1) ← de_opt ws;
  match ws1 with
  | n :: ws2 =>
      if decide (0 ≤ n)%Z then
        '(ns, ws3) ← de_many de_node (Z.to_nat n) ws2;
        Some (mkRow y ns, ws3)
      else None
  | [] => None
  end.

Definition Deserialize (ws : list Z) : option DMatrix :=
  match ws with
  | h :: n :: ws1 =>
      if decide (0 ≤ n)%Z then
        match de_many de_row (Z.to_nat n) ws1 with
        | Some (rows, []) =>
            if decide (h = 1%Z) then Some (mkDMatrix true rows)
            else if decide (h = 0%Z) then Some (mkDMatrix false rows)
            else None
        | _ => None
        end
      else None
  | _ => None
  end.

(** ** class InmemReader (reader.h:142-187) *)

Module Inmem.

Record InmemReader : Type := mkInmemReader {
  base : ReaderBase;
  data_buf_ : DMatrix;
  num_samples_ : index_t;
  pos_ : index_t;
  order_ : list index_t }.

(** [InmemReader() : pos_(0)]. *)
Definition ctor : InmemReader := mkInmemReader Reader_ctor empty_matrix 0 0 [].

Definition set_base (b : ReaderBase) (r : InmemReader) : InmemReader :=
  mkInmemReader b (data_buf_ r) (num_samples_ r) (pos_ r) (order_ r).

Definition set_pos (p : index_t) (r : InmemReader) : InmemReader :=
  mkInmemReader (base r) (data_buf_ r) (num_samples_ r) p (order_ r).

Definition set_order (o : list index_t) (r : InmemReader) : InmemReader :=
  mkInmemReader (base r) (data_buf_ r) (num_samples_ r) (pos_ r) o.

(** [InmemReader::SetShuffle] (reader.h:158-163):
<<
    this->shuffle_ = shuffle;
    if (shuffle_ && !order_.empty()) {
      random_shuffle(order_.begin(), order_.end());
    }
>> *)
Definition SetShuffle (shuffle : bool) (r : InmemReader) (e : Env) : InmemReader * Env :=
  let r1 := set_base (set_shuffle shuffle (base r)) r in
  if shuffle_ (base r1) && negb (bool_decide (order_ r1 = [])) then
    let (o, g) := random_shuffle (order_ r1) (env_rand e) in
    (set_order o r1, mkEnv g (env_log e))
  else (r1, e).

(** The rows a window of the order vector selects from the preloaded
    table, in window order. *)
Fixpoint select (rows : list SparseRow) (window : list index_t) : list SparseRow :=
  match window with
  | [] => []
  | i :: window' =>
      match rows !! i with
      | Some row => row :: select rows window'
      | None => select rows window'
      end
  end.

(** Modelled from the spec: [InmemReader::Samples] is declared at
    reader.h:152 and defined in [reader.cc] (absent).  Batches are windows
    of [num_samples_] consecutive logical rows starting at the cursor
    [pos_], which the call advances; the last window may be shorter; at the
    end the call returns zero rows.  The logical order is [order_]. *)
Definition Samples (r : InmemReader) : DMatrix * InmemReader :=
  if decide (row_length (data_buf_ r) ≤ pos_ r) then
    (mkDMatrix (has_label_ (base r)) [], r)
  else
    let window := take (num_samples_ r) (drop (pos_ r) (order_ r)) in
    let m := mkDMatrix (has_label_ (base r)) (select (dm_rows (data_buf_ r)) window) in
    (m, set_pos (pos_ r + length window) (set_base (set_data_samples m (base r)) r)).

(** Modelled from the spec: [InmemReader::Reset] is declared at
    reader.h:155 and defined in [reader.cc] (absent).  It returns the
    cursor to the logical beginning.  The design leaves open whether an
    enabled shuffle is redone on every [Reset] or done once when it is
    enabled; [reshuffle_on_reset] selects between the two. *)
Definition Reset (reshuffle_on_reset : bool) (r : InmemReader) (e : Env)
  : InmemReader * Env :=
  let r1 := set_pos 0 r in
  if reshuffle_on_reset && shuffle_ (base r1) then
    let (o, g) := random_shuffle (order_ r1) (env_rand e) in
    (set_order o r1, mkEnv g (env_log e))
  else (r1, e).

(** Modelled from the spec: [InmemReader::hash_binary] is declared at
    reader.h:177 and defined in [reader.cc] (absent).  The cache is valid
    when the sibling [".bin"] file exists and its token is the one the
    current source produces. *)
Definition hash_binary `{StalenessSignal} (fs : FileSystem) (filename : string) : bool :=
  match text_files fs !! filename, bin_files fs !! bin_name filename with
  | Some src, Some c => bool_decide (bin_token c = signal src)
  | _, _ => false
  end.

(** What both initialisation paths do once the table is loaded: the batch
    size is set, the cursor is at the beginning and the order is the
    identity.  The header has no setter for [num_samples_]; its value is
    the configuration [batch_rows]. *)
Definition load (batch_rows : nat) (m : DMatrix) (r : InmemReader) : InmemReader :=
  mkInmemReader (base r) m batch_rows 0 (seq 0 (row_length m)).

(** Modelled from the spec: [InmemReader::init_from_txt] is declared at
    reader.h:183 and defined in [reader.cc] (absent).  The full text goes
    through the selected parser into the table and a cache is persisted
    for future runs.  ([Initialize] selects the parser first; without one
    nothing is loaded.) *)
Definition init_from_txt `{Parser, StalenessSignal} (batch_rows : nat)
    (src : list ascii) (r : InmemReader) (fs : FileSystem) : InmemReader * FileSystem :=
  match parser_ (base r) with
  | Some p =>
      let hl := has_label_ (base r) in
      let m := mkDMatrix hl (Parse p hl src) in
      (load batch_rows m r,
       write_bin (bin_name (filename_ (base r))) (mkBinFile (signal src) (Serialize m)) fs)
  | None => (r, fs)
  end.

(** Modelled from the spec: [InmemReader::init_from_binary] is declared at
    reader.h:180 and defined in [reader.cc] (absent).  The cache is
    deserialised directly into the table; a corrupt cache is discarded
    silently and the text is parsed again. *)
Definition init_from_binary `{Parser, StalenessSignal} (batch_rows : nat)
    (src : list ascii) (r : InmemReader) (fs : FileSystem) : InmemReader * FileSystem :=
  match bin_files fs !! bin_name (filename_ (base r)) with
  | Some c =>
      match Deserialize (bin_payload c) with
      | Some m => (load batch_rows m r, fs)
      | None => init_from_txt batch_rows src r fs
      end
  | None => init_from_txt batch_rows src r fs
  end.

(** Modelled from the spec: [InmemReader::Initialize] is declared at
    reader.h:149 and defined in [reader.cc] (absent).  One-time setup:
    the format detector fixes format and label presence (fatal when it
    cannot), then the table is preloaded from a valid cache or else from
    the text. *)
Definition Initialize `{Parser, FormatDetector, StalenessSignal} (batch_rows : nat)
    (filename : string) (r : InmemReader) (fs : FileSystem)
  : Result (InmemReader * FileSystem) :=
  src ← OpenFileOrDie fs filename;
  '(name, hl) ← check_file_format src;
  p ← CreateParser name;
  let r1 := set_base (mkReaderBase filename (data_samples_ (base r)) (Some p) hl
                        (shuffle_ (base r))) r in
  Ok (if hash_binary fs filename then init_from_binary batch_rows src r1 fs
      else init_from_txt batch_rows src r1 fs).

Definition ops (reshuffle_on_reset : bool) : ReaderOps InmemReader :=
  mkReaderOps InmemReader
    (λ r, Some (Samples r)) (Reset reshuffle_on_reset) SetShuffle
    (λ r, has_label_ (base r)).

(** The invariant of a loaded reader: the order vector is a permutation
    of the row indices of the preloaded table and the cursor is within
    the table. *)
Definition wf (r : InmemReader) : Prop :=
  order_ r ≡ₚ seq 0 (row_length (data_buf_ r)) ∧ pos_ r ≤ row_length (data_buf_ r).

(** A reader as [load] leaves it: table [m], batch size [batch], cursor
    at the beginning, identity order. *)
Definition loaded (m : DMatrix) (batch : nat) (r : InmemReader) : Prop :=
  data_buf_ r = m ∧ num_samples_ r = batch ∧ pos_ r = 0
  ∧ order_ r = seq 0 (row_length m).

(** Two readers that serve the same batches: they agree on everything
    [Samples] reads. *)
Definition same_view (r1 r2 : InmemReader) : Prop :=
  data_buf_ r1 = data_buf_ r2 ∧ num_samples_ r1 = num_samples_ r2
  ∧ pos_ r1 = pos_ r2 ∧ order_ r1 = order_ r2
  ∧ has_label_ (base r1) = has_label_ (base r2).

End Inmem.

(** ** class OndiskReader (reader.h:195-274) *)

Module Ondisk.

(** An open [FILE*]: the bytes of the file and the read position. *)
Record FILE : Type := mkFILE { f_data : list ascii; f_pos : nat }.

Definition ThreadPool := nat.

(** The control state of the background thread that runs [read_block]. *)
Inductive Producer : Type := NotStarted | Looping | Done.

Global Instance Producer_eq_dec : EqDecision Producer.
Proof. solve_decision. Defined.

(** The members of the class.  [pool_] is a pointer, [None] when null;
    [block_size_] is a [uint64], kept under [option]: every reader that
    the constructor or the setters produce holds [Some] value.
    [mutex_] and the two condition variables have no data of their own:
    every access below happens as one step under the lock.  [producer] is
    the state of the thread borrowed from the pool. *)
Record OndiskReader : Type := mkOndiskReader {
  base : ReaderBase;
  file_ptr_ : option FILE;
  data_buf_ : DMatrix;
  pool_ : option ThreadPool;
  block_ : list ascii;
  block_size_ : option Z;
  full_ : bool;
  producer : Producer }.

(** [OndiskReader() : full_(false)] (reader.h:197).  The constructor
    initialises [full_] and nothing else of the class: [pool_] and
    [block_size_] keep whatever the memory of the object held, here
    [pool] and [size].  (The other members it leaves alone are read by
    nothing before [Initialize] writes them and are given empty values.) *)
Definition ctor (pool : option ThreadPool) (size : Z) : OndiskReader :=
  mkOndiskReader Reader_ctor None empty_matrix pool [] (Some size) false NotStarted.

Definition set_base (b : ReaderBase) (r : OndiskReader) : OndiskReader :=
  mkOndiskReader b (file_ptr_ r) (data_buf_ r) (pool_ r) (block_ r) (block_size_ r)
    (full_ r) (producer r).

Definition set_pool (p : option ThreadPool) (r : OndiskReader) : OndiskReader :=
  mkOndiskReader (base r) (file_ptr_ r) (data_buf_ r) p (block_ r) (block_size_ r)
    (full_ r) (producer r).

Definition set_block_size (s : Z) (r : OndiskReader) : OndiskReader :=
  mkOndiskReader (base r) (file_ptr_ r) (data_buf_ r) (pool_ r) (block_ r) (Some s)
    (full_ r) (producer r).

(** [CHECK_NOTNULL] and [CHECK_GT] ([src/base/common.h], absent): a failed
    check is a fatal error. *)
Definition CHECK_NOTNULL {A} (p : option A) : Result A :=
  match p with Some a => Ok a | None => Fatal "Check failed: pointer is NULL" end.

Definition CHECK_GT (a b : Z) : Result unit :=
  if (b <? a)%Z then Ok () else Fatal "Check failed: a > b".


(** [OndiskReader::SetShuffle] (reader.h:212-217):
<<
    if (shuffle == true) {
      LOG(ERROR) << "Cannot set shuffle for OndiskReader.";
    }
    this->shuffle_ = false;
>> *)
Definition SetShuffle (shuffle : bool) (r : OndiskReader) (e : Env) : OndiskReader * Env :=
  let e1 := if shuffle then LOG ERROR "Cannot set shuffle for OndiskReader." e else e in
  (set_base (set_shuffle false (base r)) r, e1).

(** [OndiskReader::SetThreadPool] (reader.h:235-238). *)
Definition SetThreadPool (pool : option ThreadPool) (r : OndiskReader) : Result OndiskReader :=
  p ← CHECK_NOTNULL pool;
  Ok (set_pool (Some p) r).

(** [OndiskReader::SetBlockSize] (reader.h:240-243); [size] is a [uint64]. *)
Definition SetBlockSize (size : Z) (r : OndiskReader) : Result OndiskReader :=
  _ ← CHECK_GT size 0;
  Ok (set_block_size size r).

(** Modelled from the spec: [OndiskReader::Initialize] is declared at
    reader.h:203 and defined in [reader.cc] (absent).  A worker pool and a
    positive block size must have been supplied (a contract error
    otherwise); the format is detected (fatal when it cannot be); the
    source is opened for streaming and the producer loop is started. *)
Definition Initialize `{FormatDetector} (filename : string) (r : OndiskReader)
    (fs : FileSystem) : Result OndiskReader :=
  _ ← CHECK_NOTNULL (pool_ r);
  size ← CHECK_NOTNULL (block_size_ r);
  _ ← CHECK_GT size 0;
  src ← OpenFileOrDie fs filename;
  '(name, hl) ← check_file_format src;
  p ← CreateParser name;
  Ok (mkOndiskReader
        (mkReaderBase filename (data_samples_ (base r)) (Some p) hl (shuffle_ (base r)))
        (Some (mkFILE src 0)) empty_matrix (pool_ r) [] (block_size_ r) false Looping).

(** [ReadDataFromDisk] ([src/base/file_util.h], absent): up to [len] bytes
    from the read position, which advances by what was read. *)
Definition ReadDataFromDisk (f : FILE) (len : nat) : list ascii * FILE :=
  let blk := take len (drop (f_pos f) (f_data f)) in
  (blk, mkFILE (f_data f) (f_pos f + length blk)).

(** The offset just after the last newline of a block, [0] without one. *)
Fixpoint last_boundary (b : list ascii) : nat :=
  match b with
  | [] => 0
  | c :: b' =>
      match last_boundary b' with
      | 0 => if decide (c = nl) then 1 else 0
      | S k => S (S k)
      end
  end.

(** Modelled from the spec: [shrink_block] is declared at reader.h:270 and
    defined in [reader.cc] (absent).  The block is cut back to its last
    complete record boundary, and the file position moves back by the
    bytes cut off, so that no partial row reaches the parser and no byte
    is lost.  Returns the valid length and the repositioned file. *)
Definition shrink_block (block : list ascii) (ret : nat) (f : FILE) : nat * FILE :=
  let k := last_boundary (take ret block) in
  (k, mkFILE (f_data f) (f_pos f - (ret - k))).

(** Modelled from the spec: [read_block] is declared at reader.h:269 and
    defined in [reader.cc] (absent).  One turn of the producer loop, run
    under the lock once the buffer is not full: read up to a block of
    bytes, cut it to the last record boundary, parse the valid range
    into the shared table, mark the buffer full.  The cut is made on
    every block, short or full: the design asks for it on a short read
    and forbids that a partial row reaches the parser on any.  A read
    that returns nothing is the end of the source: the batch is empty and
    the loop is done until the next [Reset]. *)
Definition read_block `{Parser} (r : OndiskReader) : OndiskReader :=
  match file_ptr_ r, block_size_ r, parser_ (base r) with
  | Some f, Some size, Some p =>
      let (blk, f1) := ReadDataFromDisk f (Z.to_nat size) in
      let (ret, f2) := shrink_block blk (length blk) f1 in
      let hl := has_label_ (base r) in
      mkOndiskReader (base r) (Some f2) (mkDMatrix hl (Parse p hl (take ret blk)))
        (pool_ r) blk (block_size_ r) true
        (if decide (length blk = 0) then Done else Looping)
  | _, _, _ => r
  end.

(** The consumer's half of the hand-off, run under the lock once the
    buffer is full: the produced table is swapped into [data_samples_]
    and the buffer is marked not full. *)
Definition take_batch (r : OndiskReader) : DMatrix * OndiskReader :=
  (data_buf_ r,
   mkOndiskReader (set_data_samples (data_buf_ r) (base r)) (file_ptr_ r)
     (data_samples_ (base r)) (pool_ r) (block_ r) (block_size_ r) false (producer r)).

(** The two threads as a transition system.  The producer may move only
    when the buffer is not full, the consumer only when it is full. *)
Inductive Event : Type := Produced | Consumed (m : DMatrix).

Inductive step `{Parser} : OndiskReader → Event → OndiskReader → Prop :=
  | step_producer r :
      full_ r = false → producer r = Looping →
      step r Produced (read_block r)
  | step_consumer r :
      full_ r = true →
      step r (Consumed (take_batch r).1) (take_batch r).2.

(** Modelled from the spec: [OndiskReader::Samples] is declared at
    reader.h:206 and defined in [reader.cc] (absent).  The caller blocks
    until the buffer is full, then takes the batch.  With the buffer not
    full the call returns after the producer's next turn; if the producer
    is not looping the call never returns. *)
Definition Samples `{Parser} (r : OndiskReader) : option (DMatrix * OndiskReader) :=
  if full_ r then Some (take_batch r)
  else if decide (producer r = Looping) then Some (take_batch (read_block r))
  else None.

(** Modelled from the spec: [OndiskReader::Reset] is declared at
    reader.h:209 and defined in [reader.cc] (absent).  The producer loop
    is stopped, the source is repositioned to its start, a batch produced
    before the reset is dropped, and the loop starts again. *)
Definition Reset (r : OndiskReader) (e : Env) : OndiskReader * Env :=
  (mkOndiskReader (base r)
     (match file_ptr_ r with Some f => Some (mkFILE (f_data f) 0) | None => None end)
     empty_matrix (pool_ r) (block_ r) (block_size_ r) false
     (match producer r with NotStarted => NotStarted | _ => Looping end),
   e).

(** A reader whose producer is looping over [src] with the file position
    at [pos], blocks of [cap] bytes, parser [p] and label flag [hl], and
    whose buffer is not full. *)
Definition streaming (src : list ascii) (pos cap : nat) (p : Format) (hl : bool)
    (r : OndiskReader) : Prop :=
  file_ptr_ r = Some (mkFILE src pos) ∧ Z.to_nat <$> block_size_ r = Some cap
  ∧ parser_ (base r) = Some p ∧ has_label_ (base r) = hl
  ∧ full_ r = false ∧ producer r = Looping.

Definition ops `{Parser} : ReaderOps OndiskReader :=
  mkReaderOps OndiskReader Samples Reset SetShuffle (λ r, has_label_ (base r)).

End Ondisk.

(** ** Concrete collaborators

    The theorems below hold for every parser, detector and staleness
    signal.  To run the model on concrete files we fix simple ones: a
    parser that records the bytes of a line as feature indices, a
    detector that counts the [:] qualifiers of the last token of the
    first line, and a signal that is the content itself. *)

Definition code (c : ascii) : Z := Z.of_N (N_of_ascii c).

Definition raw_parser : Parser :=
  {| parse_line := λ _ _ line, mkRow None (map (λ c, mkNode None (code c) 1%Z) line) |}.

Definition count_colons (t : list ascii) : nat :=
  length (filter (λ c, c = ":"%char) t).

Definition sample_detector : FormatDetector :=
  {| inspect := λ src,
       match lines src with
       | [] => None
       | line :: _ =>
           match fields " "%char line with
           | [] => None
           | t0 :: ts =>
               let hl := bool_decide (count_colons t0 = 0) in
               match count_colons (List.last ts t0) with
               | 1 => Some (LibSVM, hl)
               | 2 => Some (FFM, hl)
               | 0 => if bool_decide (","%char ∈ line) then Some (CSV, true) else None
               | _ => None
               end
           end
       end |}.

Definition content_signal : StalenessSignal := {| signal := map code |}.

Definition text (s : string) : list ascii := String.list_ascii_of_string s.

(** A file system holding one source file [name] and no cache. *)
Definition single_file (name : string) (src : list ascii) : FileSystem :=
  mkFS {[ name := src ]} ∅.

(** A two-record libsvm source, and a one-record one. *)
Definition two_rows : list ascii := text "1:2" ++ [nl] ++ text "3:4" ++ [nl].

(** The on-disk reader as a caller sets it up: constructed, given a pool
    and a block size, initialised on the file ["f"] holding [src]. *)
Definition ondisk_on (size : Z) (src : list ascii) : Result Ondisk.OndiskReader :=
  r1 ← Ondisk.SetThreadPool (Some 0) (Ondisk.ctor None 0);
  r2 ← Ondisk.SetBlockSize size r1;
  @Ondisk.Initialize sample_detector "f" r2 (single_file "f" src).

(** The in-memory reader likewise, with batches of [batch] rows. *)
Definition inmem_on (batch : nat) (src : list ascii) : Result (Inmem.InmemReader * FileSystem) :=
  @Inmem.Initialize raw_parser sample_detector content_signal batch "f" Inmem.ctor
    (single_file "f" src).

Definition from_Ok {A} (d : A) (r : Result A) : A :=
  match r with Ok a => a | Fatal _ => d end.
(** ** The rest of the header: accessors and call sequences *)

(** [Reader::has_label] (reader.h:100). *)
Definition Reader_has_label (r : ReaderBase) : bool := has_label_ r.

(** The accessors of [OndiskReader] (reader.h:222-227). *)
Definition get_block_size (r : Ondisk.OndiskReader) : option Z := Ondisk.block_size_ r.
Definition get_block (r : Ondisk.OndiskReader) : list ascii := Ondisk.block_ r.
Definition get_file_ptr (r : Ondisk.OndiskReader) : option Ondisk.FILE := Ondisk.file_ptr_ r.
Definition get_buffer (r : Ondisk.OndiskReader) : DMatrix := Ondisk.data_buf_ r.
Definition get_sample (r : Ondisk.OndiskReader) : DMatrix := data_samples_ (Ondisk.base r).
Definition get_parser (r : Ondisk.OndiskReader) : option Format := parser_ (Ondisk.base r).

(** A caller making one [SetShuffle] call after the other, with the
    arguments [bs] in order. *)
Definition Inmem_SetShuffle_calls (bs : list bool) (r : Inmem.InmemReader) (e : Env)
  : Inmem.InmemReader * Env :=
  foldl (λ s b, Inmem.SetShuffle b s.1 s.2) (r, e) bs.

Definition Ondisk_SetShuffle_calls (bs : list bool) (r : Ondisk.OndiskReader) (e : Env)
  : Ondisk.OndiskReader * Env :=
  foldl (λ s b, Ondisk.SetShuffle b s.1 s.2) (r, e) bs.

(** The number of calls in [bs] that ask for shuffling. *)
Definition enabling (bs : list bool) : nat := length (filter (λ b, b = true) bs).

(** The next [k] values [rand()] will return. *)
Definition draws (g : Rand) (k : nat) : list nat :=
  map (λ n, rand_seq g (rand_pos g + n)) (seq 0 k).

(** The swap loop of [random_shuffle] run on given draws. *)
Fixpoint shuffle_list {A} (i : nat) (xs : list nat) (l : list A) : list A :=
  match xs with
  | [] => l
  | x :: xs' => shuffle_list (S i) xs' (swap l i (x mod (i + 1)))
  end.

(** ** Facts about [random_shuffle] *)

Lemma swap_Permutation {A} (l : list A) i j : swap l i j ≡ₚ l.
Proof.
  unfold swap. destruct (l !! i) as [a|] eqn:Hi; [|done].
  destruct (l !! j) as [b|] eqn:Hj; [|done].
  by apply Permutation_insert_swap.
Qed.

Lemma swap_length {A} (l : list A) i j : length (swap l i j) = length l.
Proof. apply Permutation_length, swap_Permutation. Qed.

Lemma shuffle_from_Permutation {A} k : ∀ i (l : list A) g,
  (shuffle_from i k l g).1 ≡ₚ l.
Proof.
  induction k as [|k IH]; intros i l g; [done|].
  simpl. rewrite IH. apply swap_Permutation.
Qed.

Lemma shuffle_from_rand {A} k : ∀ i (l : list A) g,
  (shuffle_from i k l g).2 = mkRand (rand_seq g) (rand_pos g + k).
Proof.
  induction k as [|k IH]; intros i l g; simpl.
  - destruct g; simpl. f_equal. lia.
  - rewrite IH. simpl. f_equal. lia.
Qed.

Lemma random_shuffle_Permutation {A} (l : list A) g : (random_shuffle l g).1 ≡ₚ l.
Proof. apply shuffle_from_Permutation. Qed.

Lemma random_shuffle_rand {A} (l : list A) g :
  (random_shuffle l g).2 = mkRand (rand_seq g) (rand_pos g + (length l - 1)).
Proof. apply shuffle_from_rand. Qed.

(** ** The setters of [OndiskReader] *)

(** C5.  For every on-disk reader and every argument, [SetShuffle] leaves
    the shuffle flag false and every other member as it was; with [true]
    it appends one diagnostic to the log (through [LOG(ERROR)], which
    returns) and with [false] it logs nothing; it never touches the
    random stream; and the batch the next [Samples] yields is the batch
    it would have yielded without the call. *)
Theorem ondisk_SetShuffle_rejected `{Parser} (shuffle : bool)
    (r : Ondisk.OndiskReader) (e : Env) :
  let r' := (Ondisk.SetShuffle shuffle r e).1 in
  let e' := (Ondisk.SetShuffle shuffle r e).2 in
  shuffle_ (Ondisk.base r') = false
  ∧ r' = Ondisk.set_base (set_shuffle false (Ondisk.base r)) r
  ∧ env_log e' =
      env_log e ++ (if shuffle then [(ERROR, "Cannot set shuffle for OndiskReader."%string)]
                    else [])
  ∧ env_rand e' = env_rand e
  ∧ fst <$> Ondisk.Samples r' = fst <$> Ondisk.Samples r.
Proof.
  repeat split.
  - destruct shuffle; simpl; [done | by rewrite app_nil_r].
  - by destruct shuffle.
  - unfold Ondisk.Samples, Ondisk.read_block. destruct r as [b f d p bl bs fl pr]; simpl.
    destruct fl; [done|]. case_decide; [|done].
    destruct f as [f|], bs as [bs|]; simpl; try done.
    destruct (parser_ b); done.
Qed.




(** ** [InmemReader::SetShuffle] *)

(** C10.  On a reader whose order vector is empty, [SetShuffle(true)]
    sets the flag and does nothing else: the order vector, every other
    member, the random stream and the log are as before.  Conversely a
    call that changed the order vector or drew from the random stream was
    a [SetShuffle(true)] on a non-empty order vector. *)
Theorem inmem_SetShuffle_empty_order (r : Inmem.InmemReader) (e : Env) :
  Inmem.order_ r = [] →
  Inmem.SetShuffle true r e = (Inmem.set_base (set_shuffle true (Inmem.base r)) r, e)
  ∧ shuffle_ (Inmem.base (Inmem.SetShuffle true r e).1) = true
  ∧ Inmem.order_ (Inmem.SetShuffle true r e).1 = []
  ∧ (∀ b r0 e0,
       Inmem.order_ (Inmem.SetShuffle b r0 e0).1 ≠ Inmem.order_ r0
       ∨ rand_pos (env_rand (Inmem.SetShuffle b r0 e0).2) ≠ rand_pos (env_rand e0) →
       b = true ∧ Inmem.order_ r0 ≠ []).
Proof.
  intros Ho. unfold Inmem.SetShuffle. simpl. rewrite Ho. simpl. split_and!; try done.
  intros b r0 e0. destruct b; simpl.
  - case_bool_decide; simpl; [|done]. intros [?|?]; done.
  - intros [?|?]; done.
Qed.

Lemma inmem_SetShuffle_empty_order_witness :
  Inmem.order_ Inmem.ctor = []
  ∧ Inmem.order_ (Inmem.SetShuffle true Inmem.ctor (mkEnv (mkRand (λ _, 0) 0) [])).1 = [].
Proof.
  split; [reflexivity|].
  apply (inmem_SetShuffle_empty_order Inmem.ctor (mkEnv (mkRand (λ _, 0) 0) [])).
  reflexivity.
Defined.

(** ** One pass of the in-memory reader *)

Lemma select_app rows w1 w2 :
  Inmem.select rows (w1 ++ w2) = Inmem.select rows w1 ++ Inmem.select rows w2.
Proof.
  induction w1 as [|i w1 IH]; [done|]. simpl. rewrite IH. by destruct (rows !! i).
Qed.

Lemma select_length rows w :
  Forall (λ i, i < length rows) w → length (Inmem.select rows w) = length w.
Proof.
  induction 1 as [|i w Hi _ IH]; [done|]. simpl.
  destruct (lookup_lt_is_Some_2 rows i Hi) as [x ->]. simpl. by rewrite IH.
Qed.

Lemma select_length_le rows w : length (Inmem.select rows w) ≤ length w.
Proof.
  induction w as [|i w IH]; [done|]. simpl.
  destruct (rows !! i); simpl; lia.
Qed.

Lemma select_app_l rows ext w :
  Forall (λ i, i < length rows) w → Inmem.select (rows ++ ext) w = Inmem.select rows w.
Proof.
  induction 1 as [|i w Hi _ IH]; [done|]. simpl.
  by rewrite lookup_app_l, IH by done.
Qed.

Lemma select_seq rows : Inmem.select rows (seq 0 (length rows)) = rows.
Proof.
  induction rows as [|x rows IH] using rev_ind; [done|].
  rewrite length_app. simpl. rewrite Nat.add_1_r, seq_S, select_app. simpl.
  rewrite lookup_app_r, Nat.sub_diag by lia. simpl.
  f_equal. rewrite select_app_l; [done|].
  apply Forall_forall. intros i Hi%elem_of_seq. lia.
Qed.

Lemma select_Permutation rows w w' :
  w ≡ₚ w' → Inmem.select rows w ≡ₚ Inmem.select rows w'.
Proof.
  induction 1 as [|i w w' _ IH|i j w|w1 w2 w3 _ IH1 _ IH2]; simpl.
  - done.
  - destruct (rows !! i); by rewrite IH.
  - destruct (rows !! i), (rows !! j); try done. apply Permutation_swap.
  - by rewrite IH1.
Qed.

Lemma wf_order_length r : Inmem.wf r →
  length (Inmem.order_ r) = row_length (Inmem.data_buf_ r).
Proof. intros [Hp _]. by rewrite Hp, length_seq. Qed.

Lemma wf_order_bound r : Inmem.wf r →
  Forall (λ i, i < length (dm_rows (Inmem.data_buf_ r))) (Inmem.order_ r).
Proof.
  intros [Hp _]. rewrite Hp. apply Forall_forall. intros i Hi%elem_of_seq.
  unfold row_length in Hi. lia.
Qed.

(** [Samples] reads nothing but the fields [same_view] compares. *)
Lemma inmem_Samples_same_view r1 r2 :
  Inmem.same_view r1 r2 →
  (Inmem.Samples r1).1 = (Inmem.Samples r2).1
  ∧ Inmem.same_view (Inmem.Samples r1).2 (Inmem.Samples r2).2.
Proof.
  intros (Hd & Hn & Hp & Ho & Hl). unfold Inmem.Samples.
  rewrite Hd, Hn, Hp, Ho, Hl. case_decide; simpl; [done|].
  unfold Inmem.same_view. simpl. split_and!; congruence.
Qed.

Lemma inmem_pass_same_view b k : ∀ r1 r2 ms r1',
  Inmem.same_view r1 r2 →
  full_pass (H := Inmem.ops b) k r1 = Some (ms, r1') →
  ∃ r2', full_pass (H := Inmem.ops b) k r2 = Some (ms, r2').
Proof.
  induction k as [|k IH]; intros r1 r2 ms r1' Hv; [done|]. simpl.
  destruct (inmem_Samples_same_view r1 r2 Hv) as [Hm Hv'].
  destruct (Inmem.Samples r1) as [m1 s1], (Inmem.Samples r2) as [m2 s2].
  simpl in *. subst m2. case_decide; [intros [= <- <-]; eauto|].
  destruct (full_pass k s1) as [[ms1 t1]|] eqn:Hp1; [|done].
  intros [= <- <-]. destruct (IH _ _ _ _ Hv' Hp1) as [t2 ->]. eauto.
Qed.

(** A pass always ends: every batch but the last moves the cursor. *)
Lemma inmem_pass_returns b k : ∀ r,
  row_length (Inmem.data_buf_ r) - Inmem.pos_ r < k →
  ∃ ms r', full_pass (H := Inmem.ops b) k r = Some (ms, r')
    ∧ Inmem.data_buf_ r' = Inmem.data_buf_ r
    ∧ Inmem.num_samples_ r' = Inmem.num_samples_ r
    ∧ Inmem.order_ r' = Inmem.order_ r
    ∧ has_label_ (Inmem.base r') = has_label_ (Inmem.base r)
    ∧ shuffle_ (Inmem.base r') = shuffle_ (Inmem.base r).
Proof.
  induction k as [|k IH]; intros r Hk; [lia|]. simpl. unfold Inmem.Samples.
  case_decide as Hend; simpl.
  { eauto 10. }
  set (w := take _ _). case_decide as Hz; [eauto 10|].
  set (r1 := Inmem.set_pos _ _).
  destruct (IH r1) as (ms & r' & -> & ? & ? & ? & ? & ?).
  { simpl. pose proof (select_length_le (dm_rows (Inmem.data_buf_ r)) w).
    unfold row_length in *. simpl in *. lia. }
  eauto 10.
Qed.

(** With a positive batch size, a pass from cursor [pos_] serves the rows
    that the rest of the order vector selects, each batch is non-empty,
    and the pass ends with the cursor at the end of the table. *)
Lemma inmem_pass_rows b k : ∀ r,
  Inmem.wf r → 0 < Inmem.num_samples_ r →
  row_length (Inmem.data_buf_ r) - Inmem.pos_ r < k →
  ∃ ms r', full_pass (H := Inmem.ops b) k r = Some (ms, r')
    ∧ pass_rows ms
      = Inmem.select (dm_rows (Inmem.data_buf_ r)) (drop (Inmem.pos_ r) (Inmem.order_ r))
    ∧ pass_count ms = row_length (Inmem.data_buf_ r) - Inmem.pos_ r
    ∧ Inmem.pos_ r' = row_length (Inmem.data_buf_ r).
Proof.
  induction k as [|k IH]; intros r Hwf Hns Hk; [lia|].
  pose proof (wf_order_length r Hwf) as Hlen.
  pose proof (wf_order_bound r Hwf) as Hbound.
  destruct Hwf as [Hperm Hpos].
  simpl. unfold Inmem.Samples. case_decide as Hend; simpl.
  { eexists _, _. split_and!; [done| |unfold pass_count; simpl; lia|lia].
    by rewrite drop_ge by lia. }
  set (w := take _ _).
  assert (length w = Inmem.num_samples_ r `min` (row_length (Inmem.data_buf_ r) - Inmem.pos_ r))
    as Hw by (unfold w; rewrite length_take, length_drop; lia).
  assert (length (Inmem.select (dm_rows (Inmem.data_buf_ r)) w) = length w) as Hsel.
  { apply select_length. unfold w. by apply Forall_take, Forall_drop. }
  rewrite decide_False by (unfold row_length; simpl; lia).
  set (r1 := Inmem.set_pos _ _).
  destruct (IH r1) as (ms & r' & -> & Hrows & Hcount & Hfin).
  { split; simpl; [done|lia]. }
  { done. }
  { simpl. lia. }
  eexists _, _. split_and!; [done| | |done].
  - unfold pass_rows in *. simpl in *. rewrite Hrows, <- select_app. f_equal.
    rewrite <- drop_drop.
    assert (take (length w) (drop (Inmem.pos_ r) (Inmem.order_ r)) = w) as Hwt.
    { unfold w. rewrite length_take, <- take_take. by rewrite (take_ge _ (length _)). }
    rewrite <- Hwt at 1. apply take_drop.
  - unfold pass_count in *. simpl in *. rewrite Hcount. unfold row_length at 1. simpl. lia.
Qed.

(** ** One pass of the on-disk reader *)

Lemma last_boundary_le b : Ondisk.last_boundary b ≤ length b.
Proof.
  induction b as [|c b IH]; simpl; [done|].
  destruct (Ondisk.last_boundary b); [case_decide|]; lia.
Qed.

(** What one [Samples] does on a streaming reader: the producer reads the
    next block and cuts it at its last record boundary, the consumer
    receives the rows of the valid range, and the file position has
    moved by exactly the valid range. *)
Lemma ondisk_Samples_streaming `{Parser} src pos cap p hl r :
  Ondisk.streaming src pos cap p hl r →
  let blk := take cap (drop pos src) in
  let k := Ondisk.last_boundary blk in
  ∃ r', Ondisk.Samples r = Some (mkDMatrix hl (Parse p hl (take k blk)), r')
    ∧ Ondisk.file_ptr_ r' = Some (Ondisk.mkFILE src (pos + k))
    ∧ Z.to_nat <$> Ondisk.block_size_ r' = Some cap
    ∧ parser_ (Ondisk.base r') = Some p
    ∧ has_label_ (Ondisk.base r') = hl
    ∧ Ondisk.full_ r' = false
    ∧ Ondisk.producer r' = (if decide (length blk = 0) then Ondisk.Done else Ondisk.Looping)
    ∧ shuffle_ (Ondisk.base r') = shuffle_ (Ondisk.base r).
Proof.
  intros (Hf & Hs & Hp & Hl & Hfull & Hprod) blk k.
  unfold Ondisk.Samples, Ondisk.read_block. rewrite Hfull, Hprod, Hf, Hp. simpl.
  destruct (Ondisk.block_size_ r) as [size|] eqn:Hsize; [|done].
  simpl in Hs. injection Hs as Hs. rewrite Hs. fold blk.
  rewrite firstn_all. fold k. rewrite Hl.
  eexists. split; [reflexivity|]. simpl.
  split_and!; try done; [|by rewrite Hs].
  pose proof (last_boundary_le blk). do 2 f_equal. fold k. lia.
Qed.

(** The monitor discipline makes the two threads take turns: in any
    state at most one of them can move, and its move is determined. *)
Lemma step_deterministic `{Parser} r ev1 ev2 r1 r2 :
  Ondisk.step r ev1 r1 → Ondisk.step r ev2 r2 → ev1 = ev2 ∧ r1 = r2.
Proof.
  intros H1 H2. destruct H1 as [r Hf1 Hp1|r Hf1]; inversion H2; subst; try done; congruence.
Qed.

(** A [Samples] call on a streaming reader is one turn of the producer
    followed by one turn of the consumer; if the producer has already
    taken its turn when the call is made, the call returns the same. *)
Lemma ondisk_Samples_steps `{Parser} src pos cap p hl r :
  Ondisk.streaming src pos cap p hl r →
  ∃ m r1 r', Ondisk.Samples r = Some (m, r')
    ∧ Ondisk.step r Ondisk.Produced r1 ∧ Ondisk.step r1 (Ondisk.Consumed m) r'
    ∧ Ondisk.Samples r1 = Some (m, r').
Proof.
  intros (Hf & Hs & Hp & Hl & Hfull & Hprod).
  assert (Ondisk.full_ (Ondisk.read_block r) = true) as Hfull1.
  { unfold Ondisk.read_block. rewrite Hf, Hp.
    by destruct (Ondisk.block_size_ r). }
  exists (Ondisk.take_batch (Ondisk.read_block r)).1, (Ondisk.read_block r),
    (Ondisk.take_batch (Ondisk.read_block r)).2.
  split_and!.
  - unfold Ondisk.Samples. by rewrite Hfull, Hprod.
  - by constructor.
  - by constructor.
  - unfold Ondisk.Samples. by rewrite Hfull1.
Qed.

Lemma ondisk_pass_returns `{Parser} src cap p hl k : ∀ pos r,
  Ondisk.streaming src pos cap p hl r → length src - pos < k →
  ∃ ms r' pos', full_pass (H := Ondisk.ops) k r = Some (ms, r')
    ∧ Ondisk.file_ptr_ r' = Some (Ondisk.mkFILE src pos')
    ∧ Z.to_nat <$> Ondisk.block_size_ r' = Some cap
    ∧ parser_ (Ondisk.base r') = Some p
    ∧ has_label_ (Ondisk.base r') = hl
    ∧ Ondisk.producer r' ≠ Ondisk.NotStarted
    ∧ shuffle_ (Ondisk.base r') = shuffle_ (Ondisk.base r).
Proof.
  induction k as [|k IH]; intros pos r Hr Hk; [lia|]. simpl.
  destruct (ondisk_Samples_streaming _ _ _ _ _ _ Hr)
    as (r1 & -> & Hf & Hs & Hp & Hl & Hfull & Hprod & Hsh).
  set (blk := take cap (drop pos src)) in *.
  set (j := Ondisk.last_boundary blk) in *.
  destruct (decide (row_length (mkDMatrix hl (Parse p hl (take j blk))) = 0)) as [Hz|Hz].
  { eexists _, _, _. split_and!; try done. rewrite Hprod. by case_decide. }
  assert (0 < j) as Hj.
  { destruct j; [|lia]. by rewrite take_0 in Hz. }
  pose proof (last_boundary_le blk) as Hle. fold j in Hle.
  assert (length blk ≤ length src - pos) as Hblk.
  { unfold blk. rewrite length_take, length_drop. lia. }
  destruct (IH (pos + j) r1) as (ms & r' & pos' & -> & ? & ? & ? & ? & ? & ?).
  { unfold Ondisk.streaming. split_and!; try done.
    rewrite Hprod. rewrite decide_False; [done|lia]. }
  { lia. }
  eexists _, _, _. split_and!; try done. congruence.
Qed.

(** The batches of a pass depend only on the source, the position, the
    block size, the parser and the label flag. *)
Lemma ondisk_pass_deterministic `{Parser} src cap p hl k : ∀ pos r1 r2 ms r1',
  Ondisk.streaming src pos cap p hl r1 → Ondisk.streaming src pos cap p hl r2 →
  full_pass (H := Ondisk.ops) k r1 = Some (ms, r1') →
  ∃ r2', full_pass (H := Ondisk.ops) k r2 = Some (ms, r2').
Proof.
  induction k as [|k IH]; intros pos r1 r2 ms r1' H1 H2; [done|]. simpl.
  destruct (ondisk_Samples_streaming _ _ _ _ _ _ H1)
    as (s1 & -> & Hf1 & Hs1 & Hp1 & Hl1 & Hfull1 & Hprod1 & _).
  destruct (ondisk_Samples_streaming _ _ _ _ _ _ H2)
    as (s2 & -> & Hf2 & Hs2 & Hp2 & Hl2 & Hfull2 & Hprod2 & _).
  set (blk := take cap (drop pos src)) in *.
  set (j := Ondisk.last_boundary blk) in *.
  destruct (decide (row_length (mkDMatrix hl (Parse p hl (take j blk))) = 0)) as [Hz|Hz];
    [intros [= <- <-]; eauto|].
  assert (length blk ≠ 0) as Hblk.
  { intros Hb. apply Hz. destruct blk; [|done]. by rewrite take_nil. }
  rewrite decide_False in Hprod1, Hprod2 by done.
  destruct (full_pass k s1) as [[ms1 t1]|] eqn:Hpass; [|done].
  intros [= <- <-].
  destruct (IH (pos + j) s1 s2 ms1 t1) as [t2 ->]; [done|done|done|]. eauto.
Qed.

(** ** What [Initialize] establishes *)

Lemma CreateParser_format_name f : CreateParser (format_name f) = Ok f.
Proof. by destruct f; vm_compute. Qed.

Lemma check_file_format_Ok `{FormatDetector} src f hl :
  inspect src = Some (f, hl) → check_file_format src = Ok (format_name f, hl).
Proof. unfold check_file_format. by intros ->. Qed.

Lemma ondisk_Initialize_streaming `{FormatDetector} filename r fs src f hl pool size :
  Ondisk.pool_ r = Some pool → Ondisk.block_size_ r = Some size → (0 < size)%Z →
  text_files fs !! filename = Some src → inspect src = Some (f, hl) →
  ∃ r', Ondisk.Initialize filename r fs = Ok r'
    ∧ Ondisk.streaming src 0 (Z.to_nat size) f hl r'
    ∧ shuffle_ (Ondisk.base r') = shuffle_ (Ondisk.base r).
Proof.
  intros Hp Hs Hpos Hsrc Hi. unfold Ondisk.Initialize, Ondisk.CHECK_GT, OpenFileOrDie.
  rewrite Hp, Hs, Hsrc. simpl. destruct (Z.ltb_spec 0 size); [|lia]. simpl.
  rewrite (check_file_format_Ok _ _ _ Hi). simpl.
  rewrite CreateParser_format_name. simpl.
  eexists. split; [done|]. unfold Ondisk.streaming. simpl. done.
Qed.

Lemma loaded_wf m batch r : Inmem.loaded m batch r → Inmem.wf r.
Proof.
  intros (Hd & _ & Hp & Ho). unfold Inmem.wf. rewrite Hd, Hp, Ho. split; [done|lia].
Qed.

Lemma load_loaded batch m r : Inmem.loaded m batch (Inmem.load batch m r).
Proof. done. Qed.

(** ** Facts about passes *)

Lemma inmem_pass_zero_batch b k r :
  Inmem.num_samples_ r = 0 → full_pass (H := Inmem.ops b) (S k) r = Some ([], (Inmem.Samples r).2).
Proof.
  intros Hns. simpl. unfold Inmem.Samples. case_decide; simpl; [done|].
  by rewrite Hns, take_0.
Qed.

(** ** The order vector of the in-memory reader *)

Lemma inmem_SetShuffle_wf shuffle r e :
  Inmem.wf r →
  Inmem.wf (Inmem.SetShuffle shuffle r e).1
  ∧ Inmem.data_buf_ (Inmem.SetShuffle shuffle r e).1 = Inmem.data_buf_ r
  ∧ Inmem.num_samples_ (Inmem.SetShuffle shuffle r e).1 = Inmem.num_samples_ r
  ∧ Inmem.pos_ (Inmem.SetShuffle shuffle r e).1 = Inmem.pos_ r
  ∧ Inmem.order_ (Inmem.SetShuffle shuffle r e).1 ≡ₚ Inmem.order_ r.
Proof.
  intros [Hperm Hpos]. unfold Inmem.SetShuffle. simpl.
  destruct (_ && _); simpl; [|done].
  pose proof (random_shuffle_Permutation (Inmem.order_ r) (env_rand e)) as Hsh.
  destruct (random_shuffle _ _) as [o g]. simpl in *.
  split_and!; try done. split; simpl; [by rewrite Hsh|done].
Qed.

Lemma inmem_Reset_wf b r e :
  Inmem.wf r →
  Inmem.wf (Inmem.Reset b r e).1
  ∧ Inmem.data_buf_ (Inmem.Reset b r e).1 = Inmem.data_buf_ r
  ∧ Inmem.num_samples_ (Inmem.Reset b r e).1 = Inmem.num_samples_ r
  ∧ Inmem.pos_ (Inmem.Reset b r e).1 = 0
  ∧ Inmem.order_ (Inmem.Reset b r e).1 ≡ₚ Inmem.order_ r.
Proof.
  intros [Hperm Hpos]. unfold Inmem.Reset. simpl.
  destruct (_ && _); simpl.
  - pose proof (random_shuffle_Permutation (Inmem.order_ r) (env_rand e)) as Hsh.
    destruct (random_shuffle _ _) as [o g]. simpl in *.
    split_and!; try done. split; simpl; [by rewrite Hsh|lia].
  - split_and!; try done. split; simpl; [done|lia].
Qed.

Lemma inmem_Reset_num_samples b r e :
  Inmem.num_samples_ (Inmem.Reset b r e).1 = Inmem.num_samples_ r.
Proof.
  unfold Inmem.Reset. simpl. destruct (_ && _); [|done].
  by destruct (random_shuffle (Inmem.order_ r) (env_rand e)).
Qed.

(** A full pass of a well-formed reader with a positive batch size
    serves a permutation of the preloaded rows. *)
Lemma inmem_pass_Permutation b r :
  Inmem.wf r → Inmem.pos_ r = 0 → 0 < Inmem.num_samples_ r →
  ∃ ms r', full_pass (H := Inmem.ops b) (S (row_length (Inmem.data_buf_ r))) r = Some (ms, r')
    ∧ pass_rows ms = Inmem.select (dm_rows (Inmem.data_buf_ r)) (Inmem.order_ r)
    ∧ pass_rows ms ≡ₚ dm_rows (Inmem.data_buf_ r)
    ∧ pass_count ms = row_length (Inmem.data_buf_ r)
    ∧ Inmem.pos_ r' = row_length (Inmem.data_buf_ r)
    ∧ Inmem.wf r'
    ∧ Inmem.data_buf_ r' = Inmem.data_buf_ r
    ∧ Inmem.num_samples_ r' = Inmem.num_samples_ r
    ∧ Inmem.order_ r' = Inmem.order_ r
    ∧ shuffle_ (Inmem.base r') = shuffle_ (Inmem.base r).
Proof.
  intros Hwf Hpos Hns.
  destruct (inmem_pass_rows b (S (row_length (Inmem.data_buf_ r))) r)
    as (ms & r' & Hpass & Hrows & Hcount & Hfin); [done|done|lia|].
  destruct (inmem_pass_returns b (S (row_length (Inmem.data_buf_ r))) r)
    as (ms' & r'' & Hpass' & Hd & Hn & Ho & _ & Hsh); [lia|].
  rewrite Hpass in Hpass'. injection Hpass' as <- <-.
  rewrite Hpos, drop_0 in Hrows. rewrite Hpos, Nat.sub_0_r in Hcount.
  exists ms, r'. split_and!; try done.
  - rewrite Hrows. destruct Hwf as [Hperm _].
    rewrite (select_Permutation _ _ _ Hperm). by rewrite select_seq.
  - destruct Hwf as [Hperm _]. split; [by rewrite Hd, Ho|]. rewrite Hd. lia.
Qed.

(** ** Determinism without shuffling *)

(** C7.  With shuffling disabled, a full pass, a [Reset] and a second
    full pass serve the same batches, in the same order and with the same
    content.  For the in-memory reader this holds from any state with the
    cursor at the beginning and the shuffle flag false; for the on-disk
    reader from any state in which the producer streams the source from
    its start.  Both passes return: the fuel given is enough. *)
Theorem passes_repeat_without_shuffle `{Parser} :
  (∀ (b : bool) (r : Inmem.InmemReader) (e : Env),
     shuffle_ (Inmem.base r) = false → Inmem.pos_ r = 0 →
     let fuel := S (row_length (Inmem.data_buf_ r)) in
     ∃ ms r1 r2,
       full_pass (H := Inmem.ops b) fuel r = Some (ms, r1)
       ∧ full_pass (H := Inmem.ops b) fuel (Inmem.Reset b r1 e).1 = Some (ms, r2))
  ∧ (∀ (src : list ascii) (cap : nat) (p : Format) (hl : bool)
       (r : Ondisk.OndiskReader) (e : Env),
     Ondisk.streaming src 0 cap p hl r →
     let fuel := S (length src) in
     ∃ ms r1 r2,
       full_pass (H := Ondisk.ops) fuel r = Some (ms, r1)
       ∧ full_pass (H := Ondisk.ops) fuel (Ondisk.Reset r1 e).1 = Some (ms, r2)).
Proof.
  split.
  - intros b r e Hsh Hpos fuel.
    destruct (inmem_pass_returns b fuel r) as (ms & r1 & Hpass & Hd & Hn & Ho & Hl & Hs);
      [unfold fuel; lia|].
    assert (Inmem.same_view r (Inmem.Reset b r1 e).1) as Hv.
    { unfold Inmem.Reset. simpl. rewrite Hs, Hsh, andb_false_r. simpl.
      unfold Inmem.same_view. simpl. by rewrite Hd, Hn, Ho, Hl, Hpos. }
    destruct (inmem_pass_same_view b fuel _ _ _ _ Hv Hpass) as [r2 Hpass2].
    by exists ms, r1, r2.
  - intros src cap p hl r e Hr fuel.
    destruct (ondisk_pass_returns src cap p hl fuel 0 r Hr)
      as (ms & r1 & pos' & Hpass & Hf & Hs & Hp & Hl & Hprod & _); [unfold fuel; lia|].
    assert (Ondisk.streaming src 0 cap p hl (Ondisk.Reset r1 e).1) as Hr'.
    { unfold Ondisk.streaming, Ondisk.Reset. simpl. rewrite Hf.
      split_and!; try done. by destruct (Ondisk.producer r1). }
    destruct (ondisk_pass_deterministic src cap p hl fuel 0 r _ ms r1 Hr Hr' Hpass)
      as [r2 Hpass2].
    by exists ms, r1, r2.
Qed.

Lemma passes_repeat_without_shuffle_witness :
  let rm := (from_Ok (Inmem.ctor, single_file "f" []) (inmem_on 1 two_rows)).1 in
  let rd := from_Ok (Ondisk.ctor None 0) (ondisk_on 4 two_rows) in
  let e := mkEnv (mkRand (λ _, 0) 0) [] in
  (∃ ms r1 r2, full_pass (H := Inmem.ops true) 3 rm = Some (ms, r1)
               ∧ full_pass (H := Inmem.ops true) 3 (Inmem.Reset true r1 e).1 = Some (ms, r2))
  ∧ (∃ ms r1 r2, full_pass (H := @Ondisk.ops raw_parser) 9 rd = Some (ms, r1)
                 ∧ full_pass (H := @Ondisk.ops raw_parser) 9 (Ondisk.Reset r1 e).1
                   = Some (ms, r2)).
Proof.
  intros rm rd e. destruct (@passes_repeat_without_shuffle raw_parser) as [Hm Hd]. split.
  - apply (Hm true rm e); reflexivity.
  - apply (Hd two_rows 4 LibSVM false rd e). by vm_compute.
Defined.

(** ** The shuffled pass *)

(** C6.  For a loaded in-memory reader at the beginning of a pass,
    enabling the shuffle changes the rows of a full pass by a permutation
    only: the pass after [SetShuffle(true)] and the pass without it both
    return and serve the same multiset of rows; the same holds for the
    pass that follows a [Reset] of the shuffled reader, whether or not
    [Reset] shuffles again.  With a positive batch size both are
    permutations of the preloaded table, and the pass in identity order
    is the table itself. *)
Theorem shuffled_pass_is_permutation (b : bool) (r : Inmem.InmemReader) (e e' : Env) :
  Inmem.wf r → Inmem.pos_ r = 0 →
  let fuel := S (row_length (Inmem.data_buf_ r)) in
  let rs := (Inmem.SetShuffle true r e).1 in
  ∃ ms ms' ms'' r1 r1' r1'',
    full_pass (H := Inmem.ops b) fuel r = Some (ms, r1)
    ∧ full_pass (H := Inmem.ops b) fuel rs = Some (ms', r1')
    ∧ full_pass (H := Inmem.ops b) fuel (Inmem.Reset b r1' e').1 = Some (ms'', r1'')
    ∧ pass_rows ms' ≡ₚ pass_rows ms
    ∧ pass_rows ms'' ≡ₚ pass_rows ms
    ∧ (0 < Inmem.num_samples_ r →
       pass_rows ms' ≡ₚ dm_rows (Inmem.data_buf_ r)
       ∧ pass_rows ms' = Inmem.select (dm_rows (Inmem.data_buf_ r)) (Inmem.order_ rs)
       ∧ (Inmem.order_ r = seq 0 (row_length (Inmem.data_buf_ r)) →
          pass_rows ms = dm_rows (Inmem.data_buf_ r))).
Proof.
  intros Hwf Hpos fuel rs.
  destruct (inmem_SetShuffle_wf true r e Hwf) as (Hwfs & Hds & Hns & Hps & Hos).
  fold rs in Hwfs, Hds, Hns, Hps, Hos.
  destruct (decide (Inmem.num_samples_ r = 0)) as [Hz|Hnz].
  - set (r1' := (Inmem.Samples rs).2).
    assert (Inmem.num_samples_ (Inmem.Reset b r1' e').1 = 0) as Hz'.
    { rewrite inmem_Reset_num_samples.
      unfold r1', Inmem.Samples. case_decide; simpl; congruence. }
    exists [], [], [], (Inmem.Samples r).2, r1', (Inmem.Samples (Inmem.Reset b r1' e').1).2.
    unfold fuel. split_and!; try done.
    + by apply inmem_pass_zero_batch.
    + apply inmem_pass_zero_batch. congruence.
    + by apply inmem_pass_zero_batch.
    + lia.
  - destruct (inmem_pass_Permutation b r) as (ms & r1 & Hp & Hrows & Hperm & _);
      [done|done|lia|].
    destruct (inmem_pass_Permutation b rs)
      as (ms' & r1' & Hp' & Hrows' & Hperm' & _ & _ & Hwf1 & Hd1 & Hn1 & _);
      [done|congruence|lia|].
    destruct (inmem_Reset_wf b r1' e' Hwf1) as (Hwf2 & Hd2 & Hn2 & Hp2 & _).
    destruct (inmem_pass_Permutation b (Inmem.Reset b r1' e').1)
      as (ms'' & r1'' & Hp'' & _ & Hperm'' & _); [done|done|lia|].
    rewrite Hd2, Hd1, Hds in Hp'', Hperm''. rewrite Hds in Hp', Hperm', Hrows'.
    exists ms, ms', ms'', r1, r1', r1''. split_and!; try done.
    + by rewrite Hperm, Hperm'.
    + by rewrite Hperm, Hperm''.
    + intros _. split_and!; try done.
      intros Hid. rewrite Hrows, Hid. apply select_seq.
Qed.

Lemma shuffled_pass_is_permutation_witness :
  let r := Inmem.load 2 (mkDMatrix false (@Parse raw_parser LibSVM false (text "1:2" ++ [nl] ++ text "3:4" ++ [nl])))
             Inmem.ctor in
  let e := mkEnv (mkRand (λ _, 0) 0) [] in
  ∃ ms ms' r1 r1',
    full_pass (H := Inmem.ops true) 3 r = Some (ms, r1)
    ∧ full_pass (H := Inmem.ops true) 3 (Inmem.SetShuffle true r e).1 = Some (ms', r1')
    ∧ pass_rows ms' ≡ₚ pass_rows ms.
Proof.
  intros r e.
  destruct (shuffled_pass_is_permutation true r e e)
    as (ms & ms' & ms'' & r1 & r1' & r1'' & H1 & H2 & _ & H4 & _).
  - split; [reflexivity | vm_compute; lia].
  - reflexivity.
  - by exists ms, ms', r1, r1'.
Defined.

(** ** What [Initialize] and [Samples] keep *)

Lemma inmem_Initialize_load `{Parser, FormatDetector, StalenessSignal}
    batch filename r0 fs r fs' :
  Inmem.Initialize batch filename r0 fs = Ok (r, fs') →
  ∃ m bs, r = Inmem.load batch m (Inmem.set_base bs r0)
          ∧ shuffle_ bs = shuffle_ (Inmem.base r0).
Proof.
  unfold Inmem.Initialize. destruct (OpenFileOrDie fs filename) as [src|]; [|done]. simpl.
  destruct (check_file_format src) as [[name hl]|]; [|done]. simpl.
  destruct (CreateParser name) as [p|]; [|done]. simpl.
  set (r1 := Inmem.set_base _ r0).
  assert (∃ m fs1, Inmem.init_from_txt batch src r1 fs = (Inmem.load batch m r1, fs1))
    as (m0 & fs0 & Htxt) by (by eexists _, _).
  intros [= Heq]. revert Heq.
  destruct (Inmem.hash_binary fs filename).
  - unfold Inmem.init_from_binary.
    destruct (bin_files fs !! _) as [c|]; [destruct (Deserialize _) as [m|]|];
      rewrite ?Htxt; intros [= <- <-]; by eexists _, _.
  - rewrite Htxt. intros [= <- <-]. by eexists _, _.
Qed.

Lemma inmem_Samples_wf r : Inmem.wf r → Inmem.wf (Inmem.Samples r).2.
Proof.
  intros Hwf. pose proof (wf_order_length r Hwf) as Hlen. destruct Hwf as [Hperm Hpos].
  unfold Inmem.Samples. case_decide; simpl; [done|].
  split; simpl; [done|]. rewrite length_take, length_drop. lia.
Qed.

(** ** Further properties of the header's inline functions *)

(** *** Sequences of [SetShuffle] calls *)

Lemma random_shuffle_short {A} (l : list A) g :
  length l ≤ 1 → random_shuffle l g = (l, g).
Proof.
  intros Hl. unfold random_shuffle. by replace (length l - 1) with 0 by lia.
Qed.

Lemma inmem_SetShuffle_frame shuffle r e :
  let r' := (Inmem.SetShuffle shuffle r e).1 in
  let e' := (Inmem.SetShuffle shuffle r e).2 in
  Inmem.order_ r' ≡ₚ Inmem.order_ r
  ∧ Inmem.data_buf_ r' = Inmem.data_buf_ r
  ∧ Inmem.num_samples_ r' = Inmem.num_samples_ r
  ∧ Inmem.pos_ r' = Inmem.pos_ r
  ∧ set_shuffle false (Inmem.base r') = set_shuffle false (Inmem.base r)
  ∧ shuffle_ (Inmem.base r') = shuffle
  ∧ env_log e' = env_log e
  ∧ rand_seq (env_rand e') = rand_seq (env_rand e)
  ∧ rand_pos (env_rand e')
    = rand_pos (env_rand e) + (if shuffle then length (Inmem.order_ r) - 1 else 0).
Proof.
  unfold Inmem.SetShuffle. simpl. destruct shuffle; simpl.
  - case_bool_decide as Ho; simpl.
    + rewrite Ho. simpl. split_and!; try done; lia.
    + pose proof (random_shuffle_Permutation (Inmem.order_ r) (env_rand e)) as Hperm.
      pose proof (random_shuffle_rand (Inmem.order_ r) (env_rand e)) as Hrand.
      destruct (random_shuffle _ _) as [o g]. simpl in *. subst g. by split_and!.
  - split_and!; try done; lia.
Qed.

(** X1.  Whatever [SetShuffle] calls are made on an in-memory reader, in any
    number and with any arguments: the order vector stays a permutation
    of what it was (so no row index is lost or served twice); the table,
    the batch size, the cursor and every member of the base class other
    than the flag are untouched; the flag is the argument of the last
    call; nothing is logged; and [rand()] has been called [length - 1]
    times for each call with [true].  Up to one row, the order vector is
    left exactly as it was. *)
Theorem inmem_SetShuffle_calls_preserve (bs : list bool) (r : Inmem.InmemReader) (e : Env) :
  let r' := (Inmem_SetShuffle_calls bs r e).1 in
  let e' := (Inmem_SetShuffle_calls bs r e).2 in
  Inmem.order_ r' ≡ₚ Inmem.order_ r
  ∧ Inmem.data_buf_ r' = Inmem.data_buf_ r
  ∧ Inmem.num_samples_ r' = Inmem.num_samples_ r
  ∧ Inmem.pos_ r' = Inmem.pos_ r
  ∧ set_shuffle false (Inmem.base r') = set_shuffle false (Inmem.base r)
  ∧ shuffle_ (Inmem.base r') = List.last bs (shuffle_ (Inmem.base r))
  ∧ env_log e' = env_log e
  ∧ rand_seq (env_rand e') = rand_seq (env_rand e)
  ∧ rand_pos (env_rand e')
    = rand_pos (env_rand e) + enabling bs * (length (Inmem.order_ r) - 1)
  ∧ (length (Inmem.order_ r) ≤ 1 → Inmem.order_ r' = Inmem.order_ r).
Proof.
  unfold Inmem_SetShuffle_calls. revert r e.
  induction bs as [|b bs IH] using rev_ind; intros r e; simpl.
  { split_and!; try done; unfold enabling; simpl; lia. }
  rewrite foldl_app. simpl. rewrite last_last.
  specialize (IH r e). set (s := foldl _ (r, e) bs) in *. simpl in IH.
  destruct IH as (Ho & Hd & Hn & Hp & Hb & _ & Hl & Hs & Hr & Hone).
  destruct (inmem_SetShuffle_frame b s.1 s.2)
    as (Ho' & Hd' & Hn' & Hp' & Hb' & Hf' & Hl' & Hs' & Hr').
  split_and!; try congruence.
  - by rewrite Ho'.
  - rewrite Hr', Hr. unfold enabling. rewrite filter_app, length_app.
    rewrite (Permutation_length Ho). destruct b; simpl; nia.
  - intros Hlen. rewrite <- (Hone Hlen). unfold Inmem.SetShuffle. simpl.
    destruct (b && _); simpl; [|done].
    rewrite random_shuffle_short; [done|]. by rewrite (Permutation_length Ho).
Qed.

(** X2.  Whatever [SetShuffle] calls are made on an on-disk reader: after at
    least one call the flag is false and no other member has changed;
    the log has grown by exactly one diagnostic per call with [true], in
    call order; [rand()] was never called. *)
Theorem ondisk_SetShuffle_calls_absorb (bs : list bool) (r : Ondisk.OndiskReader) (e : Env) :
  let r' := (Ondisk_SetShuffle_calls bs r e).1 in
  let e' := (Ondisk_SetShuffle_calls bs r e).2 in
  r' = (if decide (bs = []) then r
        else Ondisk.set_base (set_shuffle false (Ondisk.base r)) r)
  ∧ env_log e' = env_log e
      ++ replicate (enabling bs) (ERROR, "Cannot set shuffle for OndiskReader."%string)
  ∧ env_rand e' = env_rand e.
Proof.
  unfold Ondisk_SetShuffle_calls. revert r e.
  induction bs as [|b bs IH] using rev_ind; intros r e; simpl.
  { by rewrite app_nil_r. }
  rewrite foldl_app. simpl.
  specialize (IH r e). set (s := foldl _ (r, e) bs) in *. simpl in IH.
  destruct IH as (Hr & Hl & Hg).
  rewrite decide_False by (by destruct bs). split_and!.
  - rewrite Hr. by case_decide.
  - unfold enabling in *. rewrite filter_app, length_app, replicate_add, app_assoc, <- Hl.
    destruct b; simpl; [done|by rewrite app_nil_r].
  - by destruct b.
Qed.

(** *** Configuring the on-disk reader *)

(** X3.  The two configuration calls of the on-disk reader can be made in
    either order.  With a non-null pool and a positive size both orders
    return the same reader, whose accessors give back the size and leave
    block, file, buffer, sample and parser as they were; otherwise both
    orders die.  A later [SetBlockSize] overrides an earlier one. *)
Theorem ondisk_configuration_commutes (pool : option Ondisk.ThreadPool) (size size' : Z)
    (r : Ondisk.OndiskReader) :
  let a := r1 ← Ondisk.SetThreadPool pool r; Ondisk.SetBlockSize size r1 in
  let b := r1 ← Ondisk.SetBlockSize size r; Ondisk.SetThreadPool pool r1 in
  is_fatal a = is_fatal b
  ∧ (is_fatal a = true ↔ pool = None ∨ (size ≤ 0)%Z)
  ∧ (∀ r', a = Ok r' →
       b = Ok r' ∧ Ondisk.pool_ r' = pool ∧ get_block_size r' = Some size
       ∧ get_block r' = get_block r ∧ get_file_ptr r' = get_file_ptr r
       ∧ get_buffer r' = get_buffer r ∧ get_sample r' = get_sample r
       ∧ get_parser r' = get_parser r ∧ Ondisk.base r' = Ondisk.base r
       ∧ Ondisk.full_ r' = Ondisk.full_ r
       ∧ Ondisk.SetBlockSize size' r'
         = (r1 ← Ondisk.SetThreadPool pool r; Ondisk.SetBlockSize size' r1)).
Proof.
  unfold Ondisk.SetThreadPool, Ondisk.SetBlockSize, Ondisk.CHECK_GT.
  destruct pool as [p|]; simpl; destruct (Z.ltb_spec 0 size); simpl.
  - split_and!; [done|split; [done|intros [?|?]; [done|lia]]|].
    intros r' [= <-]. by split_and!.
  - split_and!; [done|split; [right; lia|done]|done].
  - split_and!; [done|split; [by left|done]|done].
  - split_and!; [done|split; [by left|done]|done].
Qed.

(** *** What the shuffled order depends on *)

Lemma draws_S g k :
  draws g (S k) = rand_seq g (rand_pos g) :: draws (rand g).2 k.
Proof.
  unfold draws. simpl. rewrite Nat.add_0_r. f_equal.
  rewrite <- seq_shift, map_map. apply map_ext. intros n. f_equal. lia.
Qed.

Lemma shuffle_from_list {A} k : ∀ i (l : list A) g,
  (shuffle_from i k l g).1 = shuffle_list i (draws g k) l.
Proof.
  induction k as [|k IH]; intros i l g; [done|].
  rewrite draws_S. simpl. apply IH.
Qed.

(** X4.  The order [SetShuffle(true)] produces is decided by the values
    [rand()] returns for its [length - 1] calls and by nothing else: two
    random streams that agree on those values give the same order. *)
Theorem inmem_SetShuffle_seed (r : Inmem.InmemReader) (e1 e2 : Env) :
  draws (env_rand e1) (length (Inmem.order_ r) - 1)
  = draws (env_rand e2) (length (Inmem.order_ r) - 1) →
  Inmem.order_ (Inmem.SetShuffle true r e1).1 = Inmem.order_ (Inmem.SetShuffle true r e2).1.
Proof.
  intros Hd. unfold Inmem.SetShuffle. simpl. case_bool_decide; simpl; [done|].
  pose proof (shuffle_from_list (length (Inmem.order_ r) - 1) 1 (Inmem.order_ r)
                (env_rand e1)) as H1.
  pose proof (shuffle_from_list (length (Inmem.order_ r) - 1) 1 (Inmem.order_ r)
                (env_rand e2)) as H2.
  fold (random_shuffle (Inmem.order_ r) (env_rand e1)) in H1.
  fold (random_shuffle (Inmem.order_ r) (env_rand e2)) in H2.
  destruct (random_shuffle _ (env_rand e1)), (random_shuffle _ (env_rand e2)).
  simpl in *. congruence.
Qed.

Lemma inmem_SetShuffle_seed_witness :
  let r := Inmem.load 1 (mkDMatrix false (@Parse raw_parser LibSVM false two_rows)) Inmem.ctor in
  Inmem.order_ (Inmem.SetShuffle true r (mkEnv (mkRand (λ n, n) 4) [])).1
  = Inmem.order_ (Inmem.SetShuffle true r (mkEnv (mkRand (λ n, 2 * n) 2) [])).1.
Proof.
  intros r.
  apply (inmem_SetShuffle_seed r (mkEnv (mkRand (λ n, n) 4) [])
           (mkEnv (mkRand (λ n, 2 * n) 2) [])).
  reflexivity.
Defined.
